(** * udlerrors: must-be-checked status values

    A shallow embedding of [src/udlerrors/main.cpp]: the three status
    domains [win], [nt] and [hr], the free predicate [ok], the comparison
    operators, the obligation-tracking wrapper [unique_error] and the two
    sentinel handlers [last_error_if_t] and [throw_last_error_if_t].

    Integers are [Z]; the casts of the source are written out as
    reductions modulo [2^32].  Wrapper objects live in a store indexed by
    addresses, because [issafe] is [mutable] and the copy operations
    write to their source through a [const] reference: two names of one
    object must see each other's writes. *)

From stdpp Require Import numbers gmap.

Local Open Scope Z_scope.

(** ** Platform headers *)

(** Modelled from the spec: the platform headers included by the source
    ([<windows.h>], [<winternl.h>], [<ntstatus.h>]) are not part of the
    repository; the spec calls their contents "reserved numeric constants
    marking success for each domain" and predicates "computed from
    disjoint bit ranges of the code".  The definitions below give these
    constants and macros the values they have in the Windows SDK: the
    three success codes are zero, the severity of an [NTSTATUS] is its
    two top bits, and an [HRESULT] fails when its sign bit is set. *)
Module Platform.

(** [DWORD] and [ULONG] are unsigned 32 bit, [NTSTATUS] and [HRESULT] are
    signed 32 bit ([LONG]). *)
Definition DWORD := Z.
Definition ULONG := Z.
Definition NTSTATUS := Z.
Definition HRESULT := Z.

Definition is_DWORD (z : Z) : Prop := 0 ≤ z < 2 ^ 32.
Definition is_LONG (z : Z) : Prop := - 2 ^ 31 ≤ z < 2 ^ 31.

(** The casts [DWORD(x)], [(ULONG)(x)]: reduction modulo [2^32]. *)
Definition to_DWORD (z : Z) : DWORD := z `mod` 2 ^ 32.
Definition to_ULONG (z : Z) : ULONG := z `mod` 2 ^ 32.

(** The casts [NTSTATUS(x)], [HRESULT(x)]: the two's complement reading
    of the low 32 bits. *)
Definition to_LONG (z : Z) : Z := (z + 2 ^ 31) `mod` 2 ^ 32 - 2 ^ 31.

(** Modelled from the spec: the "reserved numeric constants marking
    success", [NOERROR], [STATUS_SUCCESS] and [S_OK] of the headers. *)
Definition NOERROR : Z := 0.
Definition STATUS_SUCCESS : NTSTATUS := 0.
Definition S_OK : HRESULT := 0.

(** Modelled from the spec: the header's
    [#define NT_SUCCESS(Status) (((NTSTATUS)(Status)) >= 0)] *)
Definition NT_SUCCESS (Status : NTSTATUS) : bool :=
  bool_decide (0 ≤ to_LONG Status).

(** Modelled from the spec: the header's
    [#define NT_INFORMATION(Status) ((((ULONG)(Status)) >> 30) == 1)] *)
Definition NT_INFORMATION (Status : NTSTATUS) : bool :=
  bool_decide (Z.shiftr (to_ULONG Status) 30 = 1).

(** Modelled from the spec: the header's
    [#define NT_WARNING(Status) ((((ULONG)(Status)) >> 30) == 2)] *)
Definition NT_WARNING (Status : NTSTATUS) : bool :=
  bool_decide (Z.shiftr (to_ULONG Status) 30 = 2).

(** Modelled from the spec: the header's
    [#define NT_ERROR(Status) ((((ULONG)(Status)) >> 30) == 3)] *)
Definition NT_ERROR (Status : NTSTATUS) : bool :=
  bool_decide (Z.shiftr (to_ULONG Status) 30 = 3).

(** Modelled from the spec: the header's
    [#define SUCCEEDED(hr) (((HRESULT)(hr)) >= 0)] *)
Definition SUCCEEDED (hr : HRESULT) : bool := bool_decide (0 ≤ to_LONG hr).

(** Modelled from the spec: the header's
    [#define FAILED(hr) (((HRESULT)(hr)) < 0)] *)
Definition FAILED (hr : HRESULT) : bool := bool_decide (to_LONG hr < 0).

End Platform.

Import Platform.

(** ** Status domains *)

(** What the templates of the source use of a type [T] that declares
    [typedef void is_error]: the field [value], the default constructor
    [T{}] and the [explicit operator bool]. *)
Class is_error (T : Type) := {
  value : T → Z;
  neutral : T;
  to_bool : T → bool;
}.

(** A type [T] that can be direct-initialised from a [V]: the [error(v)]
    of the converting constructor and the [T{v}] of [reset(V)]. *)
Class constructs (V T : Type) := construct : V → T.

(** Copy construction of a status value. *)
#[export] Instance constructs_copy (T : Type) : constructs T T := λ t, t.

(** [template<class T, ...> bool ok(const T& t) { return !!t; }] *)
Definition ok {T : Type} `{is_error T} (t : T) : bool :=
  negb (negb (to_bool t)).

(** [operator==(const T& lhs, const T& rhs)] and [operator!=]: the two
    built-in comparisons of the [value] fields. *)
Definition op_eq {T : Type} `{is_error T} (lhs rhs : T) : bool :=
  bool_decide (value lhs = value rhs).

Definition op_ne {T : Type} `{is_error T} (lhs rhs : T) : bool :=
  bool_decide (value lhs ≠ value rhs).

(** *** [struct win] *)

Record win := Win { win_value : DWORD }.

(** [win() : value(NOERROR)] *)
Definition win_default : win := Win NOERROR.

(** [explicit operator bool() const { return value == 0; }] *)
Definition win_bool (w : win) : bool := bool_decide (win_value w = 0).

#[export] Instance win_is_error : is_error win :=
  {| value := win_value; neutral := win_default; to_bool := win_bool |}.

(** [explicit win(DWORD e) : value(e)] *)
#[export] Instance win_of_DWORD : constructs DWORD win := Win.

(** [operator "" _win]: [win{ DWORD(err) }] *)
Definition lit_win (err : Z) : win := Win (to_DWORD err).

(** *** [struct nt] *)

Record nt := Nt { nt_value : NTSTATUS }.

(** [nt() : value(STATUS_SUCCESS)] *)
Definition nt_default : nt := Nt STATUS_SUCCESS.

Definition nt_success (n : nt) : bool := NT_SUCCESS (nt_value n).
Definition nt_information (n : nt) : bool := NT_INFORMATION (nt_value n).
Definition nt_warning (n : nt) : bool := NT_WARNING (nt_value n).
Definition nt_error (n : nt) : bool := NT_ERROR (nt_value n).

(** [explicit operator bool() const { return error(); }] *)
Definition nt_bool (n : nt) : bool := nt_error n.

#[export] Instance nt_is_error : is_error nt :=
  {| value := nt_value; neutral := nt_default; to_bool := nt_bool |}.

(** [explicit nt(NTSTATUS nt) : value(nt)] *)
#[export] Instance nt_of_NTSTATUS : constructs NTSTATUS nt := Nt.

(** [operator "" _nt]: [nt{ NTSTATUS(nt) }] *)
Definition lit_nt (code : Z) : nt := Nt (to_LONG code).

(** *** [struct hr] *)

Record hr := Hr { hr_value : HRESULT }.

(** [hr() : value(S_OK)] *)
Definition hr_default : hr := Hr S_OK.

Definition hr_succeeded (h : hr) : bool := SUCCEEDED (hr_value h).
Definition hr_failed (h : hr) : bool := FAILED (hr_value h).

(** [explicit operator bool() const { return succeeded(); }] *)
Definition hr_bool (h : hr) : bool := hr_succeeded h.

#[export] Instance hr_is_error : is_error hr :=
  {| value := hr_value; neutral := hr_default; to_bool := hr_bool |}.

(** [explicit hr(HRESULT hr) : value(hr)] *)
#[export] Instance hr_of_HRESULT : constructs HRESULT hr := Hr.

(** [operator "" _hr]: [hr{ HRESULT(hr) }] *)
Definition lit_hr (code : Z) : hr := Hr (to_LONG code).

(** ** Exceptions *)

(** [struct error_exception]: [isok] is computed once, by the
    constructor, as [error::ok(e)]. *)
Record error_exception := ErrorException { isok : bool }.

Definition error_exception_of {T : Type} `{is_error T} (e : T)
  : error_exception := ErrorException (ok e).

(** [bool ok() const { return isok; }] *)
Definition exception_ok (x : error_exception) : bool := isok x.

(** [struct win_exception : error_exception { win error; }] *)
Record win_exception := WinException {
  win_base : error_exception;
  win_error : win;
}.

(** [win_exception(const win& e) : error_exception(e), error(e)] *)
Definition win_exception_of (e : win) : win_exception :=
  WinException (error_exception_of e) e.

(** [struct nt_exception] and [struct hr_exception], built alike. *)
Record nt_exception := NtException {
  nt_base : error_exception;
  nt_error_of : nt;
}.

Definition nt_exception_of (e : nt) : nt_exception :=
  NtException (error_exception_of e) e.

Record hr_exception := HrException {
  hr_base : error_exception;
  hr_error_of : hr;
}.

Definition hr_exception_of (e : hr) : hr_exception :=
  HrException (error_exception_of e) e.

(** The result of a call that may throw an [E]. *)
Inductive completion (E A : Type) : Type :=
  | Normal (a : A)
  | Throw (e : E).
Arguments Normal {E A} a.
Arguments Throw {E A} e.

(** ** Result dispatch *)

(** The side channel read by the handlers: what [GetLastError()] returns
    at the moment of the call. *)
Record thread := Thread { GetLastError : DWORD }.

Section handlers.
Context {T : Type} `{EqDecision T}.

(** [template<class T> struct last_error_if_t { T invalid; ... }] *)
Record last_error_if_t := LastErrorIf { invalid : T }.

(** [last_error_if(T invalid)] *)
Definition last_error_if (i : T) : last_error_if_t := LastErrorIf i.

(** [operator()(T r) const]:
    [make_pair(win{ (r == invalid) ? GetLastError() : NOERROR }, r)] *)
Definition last_error_if_call (h : last_error_if_t) (env : thread) (r : T)
  : win * T :=
  (construct (if bool_decide (r = invalid h)
              then GetLastError env else NOERROR), r).

(** [template<class T> struct throw_last_error_if_t { T invalid; ... }] *)
Record throw_last_error_if_t := ThrowLastErrorIf { throw_invalid : T }.

(** [throw_last_error_if(T invalid)] *)
Definition throw_last_error_if (i : T) : throw_last_error_if_t :=
  ThrowLastErrorIf i.

(** [operator()(T r) const]:
    [if (r != invalid) return r;
     throw win_exception{ win{ GetLastError() } };] *)
Definition throw_last_error_if_call (h : throw_last_error_if_t)
    (env : thread) (r : T) : completion win_exception T :=
  if bool_decide (r ≠ throw_invalid h) then Normal r
  else Throw (win_exception_of (construct (GetLastError env))).

End handlers.

Arguments last_error_if_t T : clear implicits.
Arguments throw_last_error_if_t T : clear implicits.

(** [struct throw_nt_t]:
    [auto nte = nt{ v }; if (nte) return; throw nt_exception{ nte };] *)
Definition throw_nt_call (v : NTSTATUS) : completion nt_exception unit :=
  let nte : nt := construct v in
  if to_bool nte then Normal () else Throw (nt_exception_of nte).

(** [struct throw_hr_t]:
    [auto hre = hr{ v }; if (hre) return; throw hr_exception{ hre };] *)
Definition throw_hr_call (v : HRESULT) : completion hr_exception unit :=
  let hre : hr := construct v in
  if to_bool hre then Normal () else Throw (hr_exception_of hre).

(** [throw_nt_t throw_nt{};] and [throw_hr_t throw_hr{};] *)
Inductive throw_nt_t : Type := throw_nt.
Inductive throw_hr_t : Type := throw_hr.

(** A type that declares [typedef void is_error_handler]: its call
    operator, run in a thread whose last error code it may read. *)
Class is_error_handler (H R Out : Type) := handle : H → thread → R → Out.

#[export] Instance last_error_if_handler {T : Type} `{EqDecision T}
  : is_error_handler (last_error_if_t T) T (win * T) := last_error_if_call.

#[export] Instance throw_last_error_if_handler {T : Type} `{EqDecision T}
  : is_error_handler (throw_last_error_if_t T) T (completion win_exception T)
  := throw_last_error_if_call.

#[export] Instance throw_nt_handler
  : is_error_handler throw_nt_t NTSTATUS (completion nt_exception unit)
  := λ _ _ v, throw_nt_call v.

#[export] Instance throw_hr_handler
  : is_error_handler throw_hr_t HRESULT (completion hr_exception unit)
  := λ _ _ v, throw_hr_call v.

(** [operator||(const ReturnT& result, const T& handler)
      { return handler(result); }] *)
Definition pipe {R H Out : Type} `{is_error_handler H R Out} (env : thread)
    (result : R) (handler : H) : Out := handle handler env result.

(** ** The obligation-tracking wrapper *)

(** [class unique_error { T error; mutable bool issafe; ... }] *)
Record unique_error (T : Type) := UniqueError { error : T; issafe : bool }.
Arguments UniqueError {T} error issafe.
Arguments error {T} u.
Arguments issafe {T} u.

(** Objects are named by their address.  A reference parameter
    ([const unique_error& o]) and [this] are addresses of the same store,
    so that [a = a] reads and writes one object. *)
Definition addr := positive.

Abbreviation heap T := (gmap addr (unique_error T)).

(** How a piece of code ends: it returns, it calls [std::terminate()], or
    it uses an object outside its lifetime (which no well-scoped caller
    does). *)
Inductive outcome (A : Type) : Type :=
  | Returns (a : A)
  | Terminates
  | Dangling.
Arguments Returns {A} a.
Arguments Terminates {A}.
Arguments Dangling {A}.

Definition cmd (T A : Type) : Type := heap T → outcome (A * heap T).

#[export] Instance cmd_ret {T : Type} : MRet (cmd T) :=
  λ A a h, Returns (a, h).

#[export] Instance cmd_bind {T : Type} : MBind (cmd T) :=
  λ A B k m h,
    match m h with
    | Returns (a, h') => k a h'
    | Terminates => Terminates
    | Dangling => Dangling
    end.

Section unique_error.
Context {T : Type} `{is_error T}.

(** *** Memory *)

Definition load (p : addr) : cmd T (unique_error T) :=
  λ h, match h !! p with
       | Some u => Returns (u, h)
       | None => Dangling
       end.

Definition store (p : addr) (u : unique_error T) : cmd T unit :=
  λ h, match h !! p with
       | Some _ => Returns ((), <[p:=u]> h)
       | None => Dangling
       end.

(** Storage for a new object, distinct from every live one. *)
Definition new (u : unique_error T) : cmd T addr :=
  λ h, let p := fresh (dom h) in Returns (p, <[p:=u]> h).

Definition free (p : addr) : cmd T unit :=
  λ h, match h !! p with
       | Some _ => Returns ((), delete p h)
       | None => Dangling
       end.

(** [std::terminate()] *)
Definition terminate {A : Type} : cmd T A := λ _, Terminates.

(** Reads and writes of the two members. *)
Definition get_error (p : addr) : cmd T T := u ← load p; mret (error u).
Definition get_issafe (p : addr) : cmd T bool := u ← load p; mret (issafe u).
Definition set_error (p : addr) (e : T) : cmd T unit :=
  u ← load p; store p (UniqueError e (issafe u)).
Definition set_issafe (p : addr) (s : bool) : cmd T unit :=
  u ← load p; store p (UniqueError (error u) s).

(** *** Members of [unique_error], [this] first *)

(** [void safe_or_terminate() const
      { if (!issafe) { std::terminate(); } }] *)
Definition safe_or_terminate (this : addr) : cmd T unit :=
  s ← get_issafe this;
  if negb s then terminate else mret ().

(** [~unique_error() { safe_or_terminate(); }], then the storage ends. *)
Definition dtor (this : addr) : cmd T unit :=
  safe_or_terminate this;; free this.

(** [unique_error() : issafe(true) {}]; the member [error] is default
    constructed. *)
Definition ctor_default : cmd T addr := new (UniqueError neutral true).

(** [template<class V> unique_error(V v) : error(v), issafe(false) {}] *)
Definition ctor_from {V : Type} `{constructs V T} (v : V) : cmd T addr :=
  new (UniqueError (construct v) false).

(** [unique_error(const unique_error& o)
      : error(o.error), issafe(o.issafe) { o.issafe = true; }] *)
Definition ctor_copy (o : addr) : cmd T addr :=
  e ← get_error o;
  s ← get_issafe o;
  this ← new (UniqueError e s);
  set_issafe o true;;
  mret this.

(** [unique_error& operator=(const unique_error& o)
      { error = o.error; issafe = o.issafe; o.issafe = true;
        return *this; }] *)
Definition assign (this o : addr) : cmd T addr :=
  e ← get_error o;
  set_error this e;;
  s ← get_issafe o;
  set_issafe this s;;
  set_issafe o true;;
  mret this.

(** [bool ok() const { issafe = true; return error::ok(error); }] *)
Definition ok_ (this : addr) : cmd T bool :=
  set_issafe this true;;
  e ← get_error this;
  mret (ok e).

(** [explicit operator bool() const { return ok(); }] *)
Definition operator_bool (this : addr) : cmd T bool := ok_ this.

(** [T& get() { return error; }] read as a value. *)
Definition get (this : addr) : cmd T T := get_error this.

(** [bool is_safe() const { return issafe; }] *)
Definition is_safe (this : addr) : cmd T bool := get_issafe this.

(** [unique_error& reset()
      { safe_or_terminate(); error = T{}; issafe = true;
        return *this; }] *)
Definition reset (this : addr) : cmd T addr :=
  safe_or_terminate this;;
  set_error this neutral;;
  set_issafe this true;;
  mret this.

(** [template<class V> unique_error& reset(V v)
      { safe_or_terminate(); error = T{v}; issafe = false;
        return *this; }] *)
Definition reset_from {V : Type} `{constructs V T} (this : addr) (v : V)
  : cmd T addr :=
  safe_or_terminate this;;
  set_error this (construct v);;
  set_issafe this false;;
  mret this.

(** [T release()
      { T result = error; error = T{}; issafe = true;
        return result; }] *)
Definition release (this : addr) : cmd T T :=
  result ← get_error this;
  set_error this neutral;;
  set_issafe this true;;
  mret result.

(** *** Free functions over the wrapper *)

(** [bool ok(const unique_error<T>& t) { return t.ok(); }] *)
Definition ok_unique (t : addr) : cmd T bool := ok_ t.

(** [operator==(const unique_error<T>& lhs, const T& rhs)]:
    [lhs.get().value == rhs.value], and its five siblings. *)
Definition eq_unique_T (lhs : addr) (rhs : T) : cmd T bool :=
  l ← get lhs; mret (bool_decide (value l = value rhs)).
Definition ne_unique_T (lhs : addr) (rhs : T) : cmd T bool :=
  l ← get lhs; mret (bool_decide (value l ≠ value rhs)).
Definition eq_T_unique (lhs : T) (rhs : addr) : cmd T bool :=
  r ← get rhs; mret (bool_decide (value lhs = value r)).
Definition ne_T_unique (lhs : T) (rhs : addr) : cmd T bool :=
  r ← get rhs; mret (bool_decide (value lhs ≠ value r)).
Definition eq_unique_unique (lhs rhs : addr) : cmd T bool :=
  l ← get lhs; r ← get rhs; mret (bool_decide (value l = value r)).
Definition ne_unique_unique (lhs rhs : addr) : cmd T bool :=
  l ← get lhs; r ← get rhs; mret (bool_decide (value l ≠ value r)).

(** *** Calls that only read a wrapper *)

(** The calls of the interface that are none of [ok()], [release()],
    [reset()] and none of the copy operations: [get()], [is_safe()] and
    the comparisons against a status value. *)
Inductive peek : Type :=
  | PeekGet
  | PeekIsSafe
  | PeekEq (rhs : T)
  | PeekNe (rhs : T).

Definition run_peek (this : addr) (c : peek) : cmd T unit :=
  match c with
  | PeekGet => get this;; mret ()
  | PeekIsSafe => is_safe this;; mret ()
  | PeekEq rhs => eq_unique_T this rhs;; mret ()
  | PeekNe rhs => ne_unique_T this rhs;; mret ()
  end.

Fixpoint run_peeks (this : addr) (cs : list peek) : cmd T unit :=
  match cs with
  | [] => mret ()
  | c :: cs' => run_peek this c;; run_peeks this cs'
  end.

End unique_error.

Arguments peek T : clear implicits.

(** ** The call sites of [wmain] *)

(** [std::tie(err, event) = result] with [result] a [pair<win, HANDLE>]:
    the status half is converted to a temporary wrapper, which is
    assigned to [err] and destroyed at the end of the statement. *)
Definition tie_assign (err : addr) (status : win) : cmd win unit :=
  tmp ← ctor_from status;
  assign err tmp;;
  dtor tmp.

(** The block that checks [err]:
    [unique_error<win> err;
     std::tie(err, event) = CreateEvent(...) || last_error_if(HANDLE(NULL));
     assert(!err.is_safe());
     if (!err) { return -1; }
     CloseHandle(event);]
    with the raw [event] returned by [CreateEvent] as a parameter.  The
    result is what [is_safe()] answered and whether [-1] was returned. *)
Definition wmain_checked (env : thread) (event : Z) : cmd win (bool * bool) :=
  err ← ctor_default;
  tie_assign err (pipe env event (last_error_if 0)).1;;
  s ← is_safe err;
  b ← operator_bool err;
  dtor err;;
  mret (s, negb b).

(** The disabled block that leaves [err] alone:
    [unique_error<win> err;
     std::tie(err, event) = CreateEvent(...) || last_error_if(HANDLE(NULL));
     assert(!err.is_safe());
     CloseHandle(event);] *)
Definition wmain_unchecked (env : thread) (event : Z) : cmd win bool :=
  err ← ctor_default;
  tie_assign err (pipe env event (last_error_if 0)).1;;
  s ← is_safe err;
  dtor err;;
  mret s.

(** The block that releases [err]:
    [unique_error<win> err;
     std::tie(err, event) = CreateEvent(...) || last_error_if(HANDLE(NULL));
     assert(!err.is_safe());
     if (err == win{ NOERROR }) { }
     auto we = err.release();
     assert(err.is_safe());
     CloseHandle(event);]
    The result is what the two [is_safe()] answered, the comparison and
    the released value. *)
Definition wmain_released (env : thread) (event : Z)
  : cmd win (bool * bool * win * bool) :=
  err ← ctor_default;
  tie_assign err (pipe env event (last_error_if 0)).1;;
  s1 ← is_safe err;
  c ← eq_unique_T err (construct NOERROR);
  we ← release err;
  s2 ← is_safe err;
  dtor err;;
  mret (s1, c, we, s2).

(** The block that resets and checks [hres]:
    [unique_error<hr> hres;
     hres.reset(CoCreateGuid(&clsid));
     assert(!hres.is_safe());
     if (!hres) { return -1; }]
    with the [HRESULT] of [CoCreateGuid] as a parameter.  The result is
    what [is_safe()] answered and whether [-1] was returned. *)
Definition wmain_reset_checked (result : HRESULT) : cmd hr (bool * bool) :=
  hres ← ctor_default;
  reset_from hres result;;
  s ← is_safe hres;
  b ← operator_bool hres;
  dtor hres;;
  mret (s, negb b).

(** The block that resets and releases [hres]:
    [unique_error<hr> hres;
     hres.reset(CoCreateGuid(&clsid));
     assert(!hres.is_safe());
     if (hres == hr{ S_OK }) { }
     auto hre = hres.release();
     assert(hres.is_safe());] *)
Definition wmain_reset_released (result : HRESULT)
  : cmd hr (bool * bool * hr * bool) :=
  hres ← ctor_default;
  reset_from hres result;;
  s1 ← is_safe hres;
  c ← eq_unique_T hres (construct S_OK);
  hre ← release hres;
  s2 ← is_safe hres;
  dtor hres;;
  mret (s1, c, hre, s2).

(** The disabled block that assigns to [err] twice:
    [unique_error<win> err;
     std::tie(err, event) = CreateEvent(...) || last_error_if(HANDLE(NULL));
     assert(!err.is_safe());
     CloseHandle(event);
     std::tie(err, event) = CreateEvent(...) || last_error_if(HANDLE(NULL));
     assert(!err.is_safe());
     if (ok(err)) { return -1; }
     CloseHandle(event);]
    with the two raw events and the last error code at either call.  The
    result is what the two [is_safe()] answered and whether [-1] was
    returned. *)
Definition wmain_reassigned (env1 env2 : thread) (event1 event2 : Z)
  : cmd win (bool * bool * bool) :=
  err ← ctor_default;
  tie_assign err (pipe env1 event1 (last_error_if 0)).1;;
  s1 ← is_safe err;
  tie_assign err (pipe env2 event2 (last_error_if 0)).1;;
  s2 ← is_safe err;
  b ← ok_unique err;
  dtor err;;
  mret (s1, s2, b).

(** ** Counting obligations *)

(** The live wrappers of a store that are not safe. *)
Definition outstanding {T : Type} (h : heap T) : nat :=
  size (filter (λ pu : addr * unique_error T, issafe pu.2 = false) h).

(** What one wrapper adds to that number. *)
Definition owes {T : Type} (u : unique_error T) : nat :=
  if issafe u then 0%nat else 1%nat.

(** * Properties *)

(** ** Running commands *)

Section running.
Context {T : Type} `{is_error T}.

Lemma bind_returns {A B : Type} (m : cmd T A) (k : A → cmd T B)
    (h h' : heap T) (a : A) :
  m h = Returns (a, h') → (m ≫= k) h = k a h'.
Proof. intros E. unfold mbind, cmd_bind. by rewrite E. Qed.

Lemma bind_terminates {A B : Type} (m : cmd T A) (k : A → cmd T B)
    (h : heap T) :
  m h = Terminates → (m ≫= k) h = Terminates.
Proof. intros E. unfold mbind, cmd_bind. by rewrite E. Qed.

Lemma load_at (h : heap T) (p : addr) (u : unique_error T) :
  h !! p = Some u → load p h = Returns (u, h).
Proof. intros E. unfold load. by rewrite E. Qed.

Lemma store_at (h : heap T) (p : addr) (u u' : unique_error T) :
  h !! p = Some u → store p u' h = Returns ((), <[p:=u']> h).
Proof. intros E. unfold store. by rewrite E. Qed.

Lemma free_at (h : heap T) (p : addr) (u : unique_error T) :
  h !! p = Some u → free p h = Returns ((), delete p h).
Proof. intros E. unfold free. by rewrite E. Qed.

Lemma new_at (h : heap T) (u : unique_error T) :
  h !! fresh (dom h) = None ∧
  new u h = Returns (fresh (dom h), <[fresh (dom h):=u]> h).
Proof.
  split; [|done].
  apply not_elem_of_dom, is_fresh.
Qed.

Lemma get_error_at (h : heap T) (p : addr) (u : unique_error T) :
  h !! p = Some u → get_error p h = Returns (error u, h).
Proof.
  intros E. unfold get_error. by rewrite (bind_returns _ _ _ _ _ (load_at _ _ _ E)).
Qed.

Lemma get_issafe_at (h : heap T) (p : addr) (u : unique_error T) :
  h !! p = Some u → get_issafe p h = Returns (issafe u, h).
Proof.
  intros E. unfold get_issafe. by rewrite (bind_returns _ _ _ _ _ (load_at _ _ _ E)).
Qed.

Lemma set_error_at (h : heap T) (p : addr) (u : unique_error T) (e : T) :
  h !! p = Some u →
  set_error p e h = Returns ((), <[p:=UniqueError e (issafe u)]> h).
Proof.
  intros E. unfold set_error.
  rewrite (bind_returns _ _ _ _ _ (load_at _ _ _ E)).
  by apply store_at with u.
Qed.

Lemma set_issafe_at (h : heap T) (p : addr) (u : unique_error T) (s : bool) :
  h !! p = Some u →
  set_issafe p s h = Returns ((), <[p:=UniqueError (error u) s]> h).
Proof.
  intros E. unfold set_issafe.
  rewrite (bind_returns _ _ _ _ _ (load_at _ _ _ E)).
  by apply store_at with u.
Qed.

End running.

(** One statement of a member function, run on a store whose contents
    at the addresses involved are known. *)
Ltac heap_lookup :=
  repeat first
    [ rewrite lookup_insert_eq
    | rewrite lookup_insert_ne by congruence ];
  first [ reflexivity | eassumption ].

Ltac run_stmt :=
  erewrite bind_returns;
  [ | first [ eapply get_error_at | eapply get_issafe_at
            | eapply set_error_at | eapply set_issafe_at ];
      heap_lookup ];
  cbn [error issafe].

(** ** Member functions as store transformers *)

Section members.
Context {T : Type} `{is_error T}.

Lemma safe_or_terminate_at (h : heap T) (p : addr) (u : unique_error T) :
  h !! p = Some u →
  safe_or_terminate p h = if issafe u then Returns ((), h) else Terminates.
Proof.
  intros E. unfold safe_or_terminate. run_stmt. by destruct (issafe u).
Qed.

Lemma dtor_at (h : heap T) (p : addr) (u : unique_error T) :
  h !! p = Some u →
  dtor p h = if issafe u then Returns ((), delete p h) else Terminates.
Proof.
  intros E. unfold dtor.
  pose proof (safe_or_terminate_at h p u E) as S.
  destruct (issafe u).
  - rewrite (bind_returns _ _ _ _ _ S). by apply free_at with u.
  - by rewrite (bind_terminates _ _ _ S).
Qed.

Lemma ok_at (h : heap T) (p : addr) (u : unique_error T) :
  h !! p = Some u →
  ok_ p h = Returns (ok (error u), <[p:=UniqueError (error u) true]> h).
Proof. intros E. unfold ok_. do 2 run_stmt. done. Qed.

Lemma release_at (h : heap T) (p : addr) (u : unique_error T) :
  h !! p = Some u →
  release p h = Returns (error u, <[p:=UniqueError neutral true]> h).
Proof.
  intros E. unfold release. do 3 run_stmt.
  by rewrite !insert_insert_eq.
Qed.

Lemma reset_at (h : heap T) (p : addr) (u : unique_error T) :
  h !! p = Some u →
  reset p h =
    if issafe u then Returns (p, <[p:=UniqueError neutral true]> h)
    else Terminates.
Proof.
  intros E. unfold reset.
  pose proof (safe_or_terminate_at h p u E) as S.
  destruct (issafe u).
  - rewrite (bind_returns _ _ _ _ _ S). do 2 run_stmt.
    by rewrite !insert_insert_eq.
  - by rewrite (bind_terminates _ _ _ S).
Qed.

Lemma reset_from_at {V : Type} `{constructs V T} (h : heap T) (p : addr)
    (u : unique_error T) (v : V) :
  h !! p = Some u →
  reset_from p v h =
    if issafe u then Returns (p, <[p:=UniqueError (construct v) false]> h)
    else Terminates.
Proof.
  intros E. unfold reset_from.
  pose proof (safe_or_terminate_at h p u E) as S.
  destruct (issafe u).
  - rewrite (bind_returns _ _ _ _ _ S). do 2 run_stmt.
    by rewrite !insert_insert_eq.
  - by rewrite (bind_terminates _ _ _ S).
Qed.

(** Assignment between two distinct objects. *)
Lemma assign_at (h : heap T) (p o : addr) (w u : unique_error T) :
  p ≠ o → h !! p = Some w → h !! o = Some u →
  assign p o h =
    Returns (p, <[o:=UniqueError (error u) true]> (<[p:=u]> h)).
Proof.
  intros N Ep Eo. unfold assign. do 5 run_stmt.
  rewrite !insert_insert_eq. by destruct u.
Qed.

(** Assignment of an object to itself. *)
Lemma assign_self_at (h : heap T) (p : addr) (u : unique_error T) :
  h !! p = Some u →
  assign p p h = Returns (p, <[p:=UniqueError (error u) true]> h).
Proof.
  intros E. unfold assign. do 5 run_stmt.
  by rewrite !insert_insert_eq.
Qed.

Lemma ctor_copy_at (h : heap T) (o : addr) (u : unique_error T) :
  h !! o = Some u →
  ctor_copy o h =
    Returns (fresh (dom h),
             <[o:=UniqueError (error u) true]> (<[fresh (dom h):=u]> h)).
Proof.
  intros E. unfold ctor_copy. do 2 run_stmt.
  destruct (new_at h (UniqueError (error u) (issafe u))) as [F N].
  rewrite (bind_returns _ _ _ _ _ N).
  assert (fresh (dom h) ≠ o) by congruence.
  run_stmt. by destruct u.
Qed.

Lemma eq_unique_T_at (h : heap T) (p : addr) (u : unique_error T) (rhs : T) :
  h !! p = Some u →
  eq_unique_T p rhs h = Returns (bool_decide (value (error u) = value rhs), h).
Proof. intros E. unfold eq_unique_T, get. by run_stmt. Qed.

Lemma ne_unique_T_at (h : heap T) (p : addr) (u : unique_error T) (rhs : T) :
  h !! p = Some u →
  ne_unique_T p rhs h = Returns (bool_decide (value (error u) ≠ value rhs), h).
Proof. intros E. unfold ne_unique_T, get. by run_stmt. Qed.

Lemma run_peek_at (h : heap T) (p : addr) (u : unique_error T) (c : peek T) :
  h !! p = Some u → run_peek p c h = Returns ((), h).
Proof.
  intros E. destruct c; cbn [run_peek].
  - unfold get. by run_stmt.
  - unfold is_safe. by run_stmt.
  - by rewrite (bind_returns _ _ _ _ _ (eq_unique_T_at _ _ _ rhs E)).
  - by rewrite (bind_returns _ _ _ _ _ (ne_unique_T_at _ _ _ rhs E)).
Qed.

Lemma run_peeks_at (h : heap T) (p : addr) (u : unique_error T)
    (cs : list (peek T)) :
  h !! p = Some u → run_peeks p cs h = Returns ((), h).
Proof.
  intros E. induction cs as [|c cs IH]; [done|].
  cbn [run_peeks]. by rewrite (bind_returns _ _ _ _ _ (run_peek_at _ _ _ c E)).
Qed.

End members.

(** ** Status domains *)

Lemma ok_to_bool {T : Type} `{is_error T} (t : T) : ok t = to_bool t.
Proof. unfold ok. apply negb_involutive. Qed.

Lemma NT_ERROR_STATUS_SUCCESS : NT_ERROR STATUS_SUCCESS = false.
Proof. reflexivity. Qed.

Lemma to_DWORD_id (z : Z) : is_DWORD z → to_DWORD z = z.
Proof. unfold is_DWORD, to_DWORD. intros R. by apply Z.mod_small. Qed.

Lemma to_LONG_id (z : Z) : is_LONG z → to_LONG z = z.
Proof.
  unfold is_LONG, to_LONG. intros R.
  rewrite Z.mod_small; lia.
Qed.

(** The two predicates of [hr] are complementary. *)
Lemma hr_failed_not_succeeded (h : hr) : hr_failed h = negb (hr_succeeded h).
Proof.
  unfold hr_failed, hr_succeeded, FAILED, SUCCEEDED.
  rewrite <- bool_decide_not. apply bool_decide_ext. lia.
Qed.

(** The reserved success codes of [win] and [hr] pass [ok]. *)
Lemma win_hr_success_ok :
  ok (construct NOERROR : win) = true ∧ ok (construct S_OK : hr) = true.
Proof. split; reflexivity. Qed.

(** C2.  The boolean conversion of [nt] is its [error()] predicate
    itself, not the complement: for every code, [ok] of an [nt] holds
    exactly when the code has error severity.  At the reserved code
    [STATUS_SUCCESS], which has not error severity, [ok] is therefore
    false, for the value built from the code, for the default value and
    for the literal [0_nt], while it is true for the error code
    [0xC0000005]; and [throw_nt] throws for [STATUS_SUCCESS]. *)
Theorem nt_ok_is_the_error_predicate :
  (∀ n : nt, ok n = nt_error n) ∧
  nt_error (construct STATUS_SUCCESS) = false ∧
  ok (construct STATUS_SUCCESS : nt) = false ∧
  ok nt_default = false ∧
  ok (lit_nt 0) = false ∧
  ok (lit_nt 0xC0000005) = true ∧
  pipe (Thread NOERROR) STATUS_SUCCESS throw_nt
    = Throw (nt_exception_of (construct STATUS_SUCCESS)).
Proof.
  split; [intros n; exact (ok_to_bool n)|].
  repeat split.
Qed.

(** C9.  In every status domain [==] holds exactly when the two codes are
    equal and [!=] is its negation; for [win], [nt] and [hr], whose only
    member is the code, two values compare equal exactly when they are
    the same value. *)
Theorem status_equality_is_code_equality {T : Type} `{is_error T}
    (lhs rhs : T) :
  (op_eq lhs rhs = true ↔ value lhs = value rhs) ∧
  (op_ne lhs rhs = true ↔ value lhs ≠ value rhs) ∧
  op_ne lhs rhs = negb (op_eq lhs rhs) ∧
  (∀ a b : win, op_eq a b = true ↔ a = b) ∧
  (∀ a b : nt, op_eq a b = true ↔ a = b) ∧
  (∀ a b : hr, op_eq a b = true ↔ a = b).
Proof.
  unfold op_eq, op_ne. split_and!.
  - apply bool_decide_eq_true.
  - apply bool_decide_eq_true.
  - apply bool_decide_not.
  - intros [a] [b]. rewrite bool_decide_eq_true. cbn. naive_solver.
  - intros [a] [b]. rewrite bool_decide_eq_true. cbn. naive_solver.
  - intros [a] [b]. rewrite bool_decide_eq_true. cbn. naive_solver.
Qed.

(** ** Result dispatch *)

Lemma ok_win (code : DWORD) : ok (Win code) = bool_decide (code = NOERROR).
Proof. exact (ok_to_bool (Win code)). Qed.

(** C5, as the code has it.  Piped through a throwing handler, a raw
    result different from the sentinel is returned unchanged and nothing
    is thrown; a raw result equal to the sentinel throws the
    [win_exception] that carries [win{GetLastError()}], and the success
    predicate of that exception is the one of the status it carries: it
    is false exactly when the retrieved code is not [NOERROR]. *)
Theorem throw_last_error_if_dispatch {T : Type} `{EqDecision T}
    (sentinel r : T) (env : thread) :
  (r ≠ sentinel → pipe env r (throw_last_error_if sentinel) = Normal r) ∧
  (r = sentinel →
     ∃ x, pipe env r (throw_last_error_if sentinel) = Throw x ∧
          win_error x = Win (GetLastError env) ∧
          exception_ok (win_base x) = ok (win_error x) ∧
          (exception_ok (win_base x) = false ↔ GetLastError env ≠ NOERROR)).
Proof.
  unfold pipe, handle, throw_last_error_if_handler, throw_last_error_if_call.
  cbn [throw_last_error_if throw_invalid]. split; intros E.
  - by rewrite bool_decide_eq_true_2.
  - rewrite bool_decide_eq_false_2 by (intros N; by apply N).
    eexists. split; [reflexivity|]. cbn. split; [done|]. split; [done|].
    rewrite ok_win, bool_decide_eq_false. done.
Qed.

(** C5 as stated fails: with the sentinel [0], the raw result [0] and a
    thread whose last error code is [NOERROR], the exception thrown has a
    true success predicate. *)
Lemma throw_last_error_if_exception_can_be_ok :
  ∃ x, pipe (Thread NOERROR) 0 (throw_last_error_if 0) = Throw x ∧
       exception_ok (win_base x) = true.
Proof. eexists. split; reflexivity. Qed.

(** C6, as the code has it.  Piped through a non-throwing handler (its
    result is a plain pair: there is no throwing path), the value half is
    the raw result; the status half is the neutral value, which is [ok],
    when the raw result differs from the sentinel, and it is
    [win{GetLastError()}] when the raw result equals the sentinel, which
    fails [ok] exactly when the retrieved code is not [NOERROR]. *)
Theorem last_error_if_dispatch {T : Type} `{EqDecision T}
    (sentinel r : T) (env : thread) :
  (pipe env r (last_error_if sentinel)).2 = r ∧
  (r ≠ sentinel →
     (pipe env r (last_error_if sentinel)).1 = neutral ∧
     ok (pipe env r (last_error_if sentinel)).1 = true) ∧
  (r = sentinel →
     (pipe env r (last_error_if sentinel)).1 = Win (GetLastError env) ∧
     (ok (pipe env r (last_error_if sentinel)).1 = false
        ↔ GetLastError env ≠ NOERROR)).
Proof.
  unfold pipe, handle, last_error_if_handler, last_error_if_call.
  cbn [last_error_if invalid fst snd]. split_and!; [done| |]; intros E.
  - by rewrite bool_decide_eq_false_2.
  - rewrite bool_decide_eq_true_2 by done. split; [done|].
    unfold construct, win_of_DWORD. rewrite ok_win, bool_decide_eq_false. done.
Qed.

(** C6 as stated fails: with the sentinel [0], the raw result [0] and a
    thread whose last error code is [NOERROR], the status half carries
    the retrieved code and passes its success predicate. *)
Lemma last_error_if_status_can_be_ok :
  pipe (Thread NOERROR) 0 (last_error_if 0) = (Win NOERROR, 0) ∧
  ok (pipe (Thread NOERROR) 0 (last_error_if 0)).1 = true.
Proof. split; reflexivity. Qed.

(** ** The obligation-tracking wrapper *)

(** C7.  A default constructed wrapper holds [T{}] and is safe; a wrapper
    constructed from any [v] holds [T(v)] and is not safe, whatever [ok]
    says of that value.  [T{}] is the value of the reserved success code
    in each of the three domains. *)
Theorem construction_sets_the_obligation {T : Type} `{is_error T}
    {V : Type} `{constructs V T} (v : V) (h : heap T) :
  ctor_default h
    = Returns (fresh (dom h), <[fresh (dom h):=UniqueError neutral true]> h) ∧
  (this ← ctor_default; e ← get this; s ← is_safe this; mret (e, s)) h
    = Returns ((neutral, true),
               <[fresh (dom h):=UniqueError neutral true]> h) ∧
  ctor_from v h
    = Returns (fresh (dom h),
               <[fresh (dom h):=UniqueError (construct v) false]> h) ∧
  (this ← ctor_from v; e ← get this; s ← is_safe this; mret (e, s)) h
    = Returns ((construct v, false),
               <[fresh (dom h):=UniqueError (construct v) false]> h) ∧
  h !! fresh (dom h) = None ∧
  value (neutral : win) = NOERROR ∧
  value (neutral : nt) = STATUS_SUCCESS ∧
  value (neutral : hr) = S_OK.
Proof.
  split_and!; try done.
  - unfold ctor_default.
    rewrite (bind_returns _ _ _ _ _ (proj2 (new_at h _))).
    unfold get, is_safe. by do 2 run_stmt.
  - unfold ctor_from.
    rewrite (bind_returns _ _ _ _ _ (proj2 (new_at h _))).
    unfold get, is_safe. by do 2 run_stmt.
  - apply new_at, (UniqueError neutral true).
Qed.



(** C3.  Copying a wrapper [a] into another object [b], by the copy
    constructor or by assignment to a distinct wrapper, leaves [a] safe
    and holding its value, and gives [b] the value and the safety state
    [a] had: destroying [a] afterwards returns, and destroying [b]
    terminates exactly when [a] was not safe before. *)
Theorem copy_transfers_the_obligation {T : Type} `{is_error T} (h : heap T)
    (a : addr) (u : unique_error T) :
  h !! a = Some u →
  (∃ b h', ctor_copy a h = Returns (b, h') ∧
     b ≠ a ∧ h !! b = None ∧
     h' !! a = Some (UniqueError (error u) true) ∧
     h' !! b = Some u ∧
     dtor a h' = Returns ((), delete a h') ∧
     dtor b h'
       = if issafe u then Returns ((), delete b h') else Terminates) ∧
  (∀ (b : addr) (w : unique_error T), b ≠ a → h !! b = Some w →
   ∃ h', assign b a h = Returns (b, h') ∧
     h' !! a = Some (UniqueError (error u) true) ∧
     h' !! b = Some u ∧
     dtor a h' = Returns ((), delete a h') ∧
     dtor b h'
       = if issafe u then Returns ((), delete b h') else Terminates).
Proof.
  intros E. split.
  - destruct (new_at h u) as [F _].
    assert (fresh (dom h) ≠ a) as N by congruence.
    eexists _, _. split; [by apply ctor_copy_at|].
    split_and!; [done|done|heap_lookup|heap_lookup| |].
    + erewrite dtor_at by heap_lookup. done.
    + erewrite dtor_at by heap_lookup. done.
  - intros b w N Eb.
    eexists. split; [by eapply assign_at|].
    split_and!; [heap_lookup|heap_lookup| |].
    + erewrite dtor_at by heap_lookup. done.
    + erewrite dtor_at by heap_lookup. done.
Qed.

Lemma copy_transfers_the_obligation_witness :
  let a : addr := 1%positive in
  let b : addr := 2%positive in
  let h : heap win :=
    {[ a := UniqueError (Win 5) false; b := UniqueError (Win 0) true ]} in
  h !! a = Some (UniqueError (Win 5) false) ∧
  (∃ h', assign b a h = Returns (b, h') ∧
         dtor a h' = Returns ((), delete a h') ∧
         dtor b h' = Terminates) ∧
  (∃ c h', ctor_copy a h = Returns (c, h') ∧
           dtor a h' = Returns ((), delete a h') ∧
           dtor c h' = Terminates).
Proof.
  intros a b h.
  assert (h !! a = Some (UniqueError (Win 5) false)) as E by reflexivity.
  destruct (copy_transfers_the_obligation h a _ E) as [C A].
  split; [exact E|]. split.
  - destruct (A b (UniqueError (Win 0) true)) as (h' & R & _ & _ & Da & Db);
      [discriminate|reflexivity|].
    exists h'. done.
  - destruct C as (c & h' & R & _ & _ & _ & _ & Da & Dc).
    exists c, h'. done.
Defined.

(** C10.  Assigning a wrapper with an outstanding obligation to itself
    leaves its value as it was and makes it safe: [is_safe()] then
    answers true and the destructor returns. *)
Theorem self_assignment_discharges {T : Type} `{is_error T} (h : heap T)
    (a : addr) (u : unique_error T) :
  h !! a = Some u → issafe u = false →
  assign a a h = Returns (a, <[a:=UniqueError (error u) true]> h) ∧
  (assign a a;; e ← get a; s ← is_safe a; mret (e, s)) h
    = Returns ((error u, true), <[a:=UniqueError (error u) true]> h) ∧
  (assign a a;; dtor a) h = Returns ((), delete a h).
Proof.
  intros E U.
  pose proof (assign_self_at h a u E) as A.
  split_and!; [done| |]; rewrite (bind_returns _ _ _ _ _ A).
  - unfold get, is_safe. by do 2 run_stmt.
  - erewrite dtor_at by heap_lookup. cbn [issafe].
    by rewrite delete_insert_eq.
Qed.

Lemma self_assignment_discharges_witness :
  let a : addr := 1%positive in
  let h : heap hr := {[ a := UniqueError (Hr (-1)) false ]} in
  (h !! a = Some (UniqueError (Hr (-1)) false) ∧
   issafe (UniqueError (Hr (-1)) false) = false) ∧
  dtor a h = Terminates ∧
  (assign a a;; dtor a) h = Returns ((), delete a h).
Proof.
  intros a h. split; [split; reflexivity|]. split; [reflexivity|].
  apply (self_assignment_discharges h a (UniqueError (Hr (-1)) false));
    reflexivity.
Defined.

(** C8.  In either safety state, [release()] returns the held value and
    leaves the wrapper holding [T{}] and safe, other objects untouched:
    [is_safe()] then answers true, the destructor returns, and [ok] of
    the returned value is [ok] of the value held before the call. *)
Theorem release_returns_the_value_and_makes_safe {T : Type} `{is_error T}
    (h : heap T) (p : addr) (u : unique_error T) :
  h !! p = Some u →
  release p h = Returns (error u, <[p:=UniqueError neutral true]> h) ∧
  (r ← release p; s ← is_safe p; mret (ok r, s)) h
    = Returns ((ok (error u), true), <[p:=UniqueError neutral true]> h) ∧
  (r ← release p; dtor p;; mret r) h = Returns (error u, delete p h).
Proof.
  intros E. pose proof (release_at h p u E) as R.
  split_and!; [done| |]; rewrite (bind_returns _ _ _ _ _ R).
  - unfold is_safe. by run_stmt.
  - erewrite bind_returns; [reflexivity|].
    erewrite dtor_at by heap_lookup. cbn [issafe].
    by rewrite delete_insert_eq.
Qed.

Lemma release_returns_the_value_and_makes_safe_witness :
  let p : addr := 1%positive in
  let h : heap win := {[ p := UniqueError (Win 5) false ]} in
  h !! p = Some (UniqueError (Win 5) false) ∧
  dtor p h = Terminates ∧
  (r ← release p; dtor p;; mret r) h = Returns (Win 5, ∅).
Proof.
  intros p h. split; [reflexivity|]. split; [reflexivity|].
  destruct (release_returns_the_value_and_makes_safe h p
              (UniqueError (Win 5) false) eq_refl) as (_ & _ & D).
  exact D.
Defined.

(** C4, as the code has it.  Both overloads of [reset] first check the
    obligation: on a wrapper that is not safe they terminate the process
    and replace nothing.  On a safe wrapper [reset()] stores [T{}] and
    leaves it safe, and [reset(v)] stores [T{v}] and opens an obligation
    for it. *)
Theorem reset_checks_the_obligation_first {T : Type} `{is_error T}
    {V : Type} `{constructs V T} (h : heap T) (p : addr)
    (u : unique_error T) (v : V) :
  h !! p = Some u →
  reset p h =
    (if issafe u then Returns (p, <[p:=UniqueError neutral true]> h)
     else Terminates) ∧
  reset_from p v h =
    (if issafe u then Returns (p, <[p:=UniqueError (construct v) false]> h)
     else Terminates).
Proof. intros E. split; [by apply reset_at | by apply reset_from_at]. Qed.

Lemma reset_checks_the_obligation_first_witness :
  let p : addr := 1%positive in
  let h : heap hr := {[ p := UniqueError hr_default true ]} in
  h !! p = Some (UniqueError hr_default true) ∧
  reset p h = Returns (p, h) ∧
  reset_from p (-1) h = Returns (p, {[ p := UniqueError (Hr (-1)) false ]}).
Proof.
  intros p h. split; [reflexivity|].
  destruct (reset_checks_the_obligation_first h p
              (UniqueError hr_default true) (-1) eq_refl) as [R0 R1].
  split; [exact R0 | exact R1].
Defined.

(** C4 as stated fails: on a wrapper constructed from [S_OK] and not yet
    checked, either overload of [reset] terminates the process. *)
Lemma reset_on_unchecked_terminates :
  (this ← ctor_from S_OK; reset this) (∅ : heap hr) = Terminates ∧
  (this ← ctor_from S_OK; reset_from this S_OK) (∅ : heap hr) = Terminates.
Proof. split; reflexivity. Qed.

(** ** The call sites of [wmain] *)

(** A successful call: [err] has an obligation after the assignment, the
    check discharges it, [-1] is not returned and every object is gone. *)
Example wmain_checked_success :
  wmain_checked (Thread 6) 1234 ∅ = Returns ((false, false), ∅).
Proof. reflexivity. Qed.

(** A failed call with last error code 6: the check answers false and
    [-1] is returned, after [err] was destroyed without termination. *)
Example wmain_checked_failure :
  wmain_checked (Thread 6) 0 ∅ = Returns ((false, true), ∅).
Proof. reflexivity. Qed.

(** Without the check the block terminates the process, also when the
    call succeeded. *)
Example wmain_unchecked_terminates :
  wmain_unchecked (Thread 6) 1234 ∅ = Terminates ∧
  wmain_unchecked (Thread 6) 0 ∅ = Terminates.
Proof. split; reflexivity. Qed.

(** * Further properties of the code *)

(** ** The handlers [throw_hr] and [throw_nt] *)

(** X1.  [throw_hr] returns normally exactly for the codes for which
    [hr{v}] is [ok], which are the codes that are not [FAILED]; for every
    other code it throws the [hr_exception] that carries [hr{v}], and the
    success predicate of a thrown exception is always false. *)
Theorem throw_hr_dispatch (env : thread) (v : HRESULT) :
  pipe env v throw_hr
    = (if ok (construct v : hr) then Normal ()
       else Throw (hr_exception_of (construct v))) ∧
  (pipe env v throw_hr = Normal () ↔ hr_failed (construct v) = false) ∧
  (∀ x, pipe env v throw_hr = Throw x →
        hr_error_of x = construct v ∧
        exception_ok (hr_base x) = false ∧
        hr_failed (construct v) = true).
Proof.
  unfold pipe, handle, throw_hr_handler, throw_hr_call.
  rewrite (ok_to_bool (construct v : hr)).
  rewrite hr_failed_not_succeeded.
  change (to_bool (construct v : hr)) with (hr_succeeded (construct v)).
  destruct (hr_succeeded (construct v)) eqn:S; split_and!; try done.
  intros x [= <-]. cbn. split_and!; try done.
  unfold exception_ok, error_exception_of, isok.
  rewrite (ok_to_bool (construct v : hr)). exact S.
Qed.

(** X2.  [throw_nt] returns normally exactly for the codes of error
    severity, for which [nt{v}] converts to true; for every other code,
    the success and warning codes among them, it throws the
    [nt_exception] that carries [nt{v}], whose success predicate is
    false. *)
Theorem throw_nt_dispatch (env : thread) (v : NTSTATUS) :
  pipe env v throw_nt
    = (if nt_error (construct v) then Normal ()
       else Throw (nt_exception_of (construct v))) ∧
  (pipe env v throw_nt = Normal () ↔ nt_error (construct v) = true) ∧
  (∀ x, pipe env v throw_nt = Throw x →
        nt_error_of x = construct v ∧
        exception_ok (nt_base x) = false ∧
        nt_error (construct v) = false).
Proof.
  unfold pipe, handle, throw_nt_handler, throw_nt_call.
  change (to_bool (construct v : nt)) with (nt_error (construct v)).
  destruct (nt_error (construct v)) eqn:S; split_and!; try done.
  intros x [= <-]. cbn. split_and!; try done.
  unfold exception_ok, error_exception_of, isok.
  rewrite (ok_to_bool (construct v : nt)). exact S.
Qed.

(** ** The literal operators *)

Lemma to_LONG_range (z : Z) : is_LONG (to_LONG z).
Proof.
  unfold is_LONG, to_LONG.
  pose proof (Z.mod_pos_bound (z + 2 ^ 31) (2 ^ 32)). lia.
Qed.

Lemma to_LONG_high (c : Z) : 2 ^ 31 ≤ c < 2 ^ 32 → to_LONG c = c - 2 ^ 32.
Proof.
  intros R. unfold to_LONG.
  replace (c + 2 ^ 31) with (c - 2 ^ 31 + 1 * 2 ^ 32) by lia.
  rewrite Z.mod_add by lia. rewrite Z.mod_small; lia.
Qed.


(** ** Sequences of member calls *)

Section sequences.
Context {T : Type} `{is_error T}.

Lemma is_safe_at (h : heap T) (p : addr) (u : unique_error T) :
  h !! p = Some u → is_safe p h = Returns (issafe u, h).
Proof. apply get_issafe_at. Qed.

Lemma get_at (h : heap T) (p : addr) (u : unique_error T) :
  h !! p = Some u → get p h = Returns (error u, h).
Proof. apply get_error_at. Qed.

End sequences.

(** The next statement of a sequence, when it is a member call on a
    wrapper whose state in the store is known. *)
Ltac run_call :=
  erewrite bind_returns;
  [ | first [ eapply ok_at | eapply release_at | eapply is_safe_at
            | eapply get_at | eapply eq_unique_T_at | eapply ne_unique_T_at
            | eapply assign_self_at ];
      heap_lookup ];
  cbn [error issafe].

(** X4.  [ok()] can be repeated: a second call gives the answer of the
    first, the value read by [get()] afterwards is the one held before,
    and the only change to the store is that the wrapper is safe. *)
Theorem ok_is_repeatable {T : Type} `{is_error T} (h : heap T) (p : addr)
    (u : unique_error T) :
  h !! p = Some u →
  (b1 ← ok_ p; b2 ← ok_ p; e ← get p; s ← is_safe p; mret (b1, b2, e, s)) h
    = Returns ((ok (error u), ok (error u), error u, true),
               <[p:=UniqueError (error u) true]> h).
Proof.
  intros E. do 4 run_call. by rewrite !insert_insert_eq.
Qed.

Lemma ok_is_repeatable_witness :
  let p : addr := 1%positive in
  let h : heap hr := {[ p := UniqueError (Hr (-5)) false ]} in
  h !! p = Some (UniqueError (Hr (-5)) false) ∧
  (b1 ← ok_ p; b2 ← ok_ p; e ← get p; s ← is_safe p; mret (b1, b2, e, s)) h
    = Returns ((false, false, Hr (-5), true),
               {[ p := UniqueError (Hr (-5)) true ]}).
Proof.
  intros p h. split; [reflexivity|].
  exact (ok_is_repeatable h p (UniqueError (Hr (-5)) false) eq_refl).
Defined.

(** X5.  [release()] hands the value out once: a second [release()]
    returns [T{}], whatever was held, and a comparison of the released
    wrapper with [T{}] is true. *)
Theorem release_hands_out_once {T : Type} `{is_error T} (h : heap T)
    (p : addr) (u : unique_error T) :
  h !! p = Some u →
  (r1 ← release p; c ← eq_unique_T p neutral; r2 ← release p;
   mret (r1, c, r2)) h
    = Returns ((error u, true, neutral), <[p:=UniqueError neutral true]> h).
Proof.
  intros E. do 3 run_call. rewrite !insert_insert_eq.
  by rewrite bool_decide_eq_true_2.
Qed.

Lemma release_hands_out_once_witness :
  let p : addr := 1%positive in
  let h : heap win := {[ p := UniqueError (Win 5) false ]} in
  h !! p = Some (UniqueError (Win 5) false) ∧
  (r1 ← release p; c ← eq_unique_T p neutral; r2 ← release p;
   mret (r1, c, r2)) h
    = Returns ((Win 5, true, Win 0), {[ p := UniqueError (Win 0) true ]}).
Proof.
  intros p h. split; [reflexivity|].
  exact (release_hands_out_once h p (UniqueError (Win 5) false) eq_refl).
Defined.

(** X6.  After [reset(v)] a wrapper owes a check, so a [reset] that
    follows it directly terminates the process, whatever the state of
    the wrapper was before the first call; on a wrapper that was safe,
    [reset(v)] followed by [release()] returns [T{v}] and leaves the
    wrapper safe, and followed by [ok()] it answers [ok] of [T{v}]. *)
Theorem reset_then {T : Type} `{is_error T} {V : Type} `{constructs V T}
    (h : heap T) (p : addr) (u : unique_error T) (v v' : V) :
  h !! p = Some u →
  (reset_from p v;; reset_from p v') h = Terminates ∧
  (reset_from p v;; reset p) h = Terminates ∧
  (issafe u = true →
     (reset_from p v;; release p) h
       = Returns (construct v, <[p:=UniqueError neutral true]> h) ∧
     (reset_from p v;; ok_ p) h
       = Returns (ok (construct v : T),
                  <[p:=UniqueError (construct v) true]> h)).
Proof.
  intros E. pose proof (reset_from_at h p u v E) as R.
  destruct (issafe u) eqn:S.
  - split_and!.
    + rewrite (bind_returns _ _ _ _ _ R).
      by erewrite reset_from_at by heap_lookup.
    + rewrite (bind_returns _ _ _ _ _ R).
      by erewrite reset_at by heap_lookup.
    + intros _. rewrite !(bind_returns _ _ _ _ _ R). split.
      * erewrite release_at by heap_lookup. by rewrite insert_insert_eq.
      * erewrite ok_at by heap_lookup. by rewrite insert_insert_eq.
  - rewrite !(bind_terminates _ _ _ R). done.
Qed.

Lemma reset_then_witness :
  let p : addr := 1%positive in
  let h : heap hr := {[ p := UniqueError hr_default true ]} in
  (h !! p = Some (UniqueError hr_default true)) ∧
  (reset_from p (-1);; reset_from p 0) h = Terminates ∧
  (reset_from p (-1);; release p) h = Returns (Hr (-1), h).
Proof.
  intros p h. split; [reflexivity|].
  destruct (reset_then h p (UniqueError hr_default true) (-1) 0 eq_refl)
    as (R2 & _ & S).
  split; [exact R2|]. exact (proj1 (S eq_refl)).
Defined.

(** X7.  The six comparisons between wrappers and status values compare
    the held codes as [==] and [!=] on the values do, change nothing in
    the store, and so discharge nothing: a wrapper that is not safe and
    is only compared still terminates the process when destroyed. *)
Theorem comparisons_do_not_discharge {T : Type} `{is_error T} (h : heap T)
    (l r : addr) (ul ur : unique_error T) (t : T) :
  h !! l = Some ul → h !! r = Some ur →
  eq_unique_T l t h = Returns (op_eq (error ul) t, h) ∧
  ne_unique_T l t h = Returns (op_ne (error ul) t, h) ∧
  eq_T_unique t r h = Returns (op_eq t (error ur), h) ∧
  ne_T_unique t r h = Returns (op_ne t (error ur), h) ∧
  eq_unique_unique l r h = Returns (op_eq (error ul) (error ur), h) ∧
  ne_unique_unique l r h = Returns (op_ne (error ul) (error ur), h) ∧
  (issafe ul = false →
     (eq_unique_T l t;; ne_T_unique t l;; eq_unique_unique l r;; dtor l) h
       = Terminates).
Proof.
  intros El Er.
  assert (eq_unique_unique l r h = Returns (op_eq (error ul) (error ur), h))
    as EE by (unfold eq_unique_unique; by do 2 run_call).
  assert (ne_T_unique t l h = Returns (op_ne t (error ul), h))
    as NE by (unfold ne_T_unique; by run_call).
  split_and!.
  - by apply eq_unique_T_at.
  - by apply ne_unique_T_at.
  - unfold eq_T_unique. by run_call.
  - unfold ne_T_unique. by run_call.
  - exact EE.
  - unfold ne_unique_unique. by do 2 run_call.
  - intros S. run_call.
    rewrite (bind_returns _ _ _ _ _ NE), (bind_returns _ _ _ _ _ EE).
    rewrite (dtor_at _ _ _ El). by rewrite S.
Qed.

Lemma comparisons_do_not_discharge_witness :
  let l : addr := 1%positive in
  let r : addr := 2%positive in
  let h : heap win :=
    {[ l := UniqueError (Win 5) false; r := UniqueError (Win 5) true ]} in
  (h !! l = Some (UniqueError (Win 5) false) ∧
   h !! r = Some (UniqueError (Win 5) true)) ∧
  eq_unique_unique l r h = Returns (true, h) ∧
  ne_unique_T l (Win 0) h = Returns (true, h).
Proof.
  intros l r h. split; [split; reflexivity|].
  destruct (comparisons_do_not_discharge h l r (UniqueError (Win 5) false)
              (UniqueError (Win 5) true) (Win 0) eq_refl eq_refl)
    as (_ & N & _ & _ & E & _).
  split; [exact E | exact N].
Defined.

(** ** Assignment over a wrapper that was not checked *)

(** X8.  Assignment does not look at the flag of its destination: a
    wrapper [b] that is not safe and is assigned a safe wrapper [a]
    becomes safe without having been checked, and its destructor
    returns; [a] stays as it was. *)
Theorem assignment_drops_the_obligation_of_its_target {T : Type}
    `{is_error T} (h : heap T) (a b : addr) (u w : unique_error T) :
  b ≠ a → h !! a = Some u → h !! b = Some w → issafe u = true →
  assign b a h = Returns (b, <[b:=u]> h) ∧
  (assign b a;; is_safe b) h = Returns (true, <[b:=u]> h) ∧
  (assign b a;; dtor b) h = Returns ((), delete b h).
Proof.
  intros N Ea Eb S.
  assert (assign b a h = Returns (b, <[b:=u]> h)) as A.
  { rewrite (assign_at h b a w u N Eb Ea). do 2 f_equal.
    apply insert_id. rewrite lookup_insert_ne by done.
    rewrite Ea. destruct u as [e s]. cbn in S. by subst s. }
  split_and!; [done| |]; rewrite (bind_returns _ _ _ _ _ A).
  - erewrite is_safe_at by heap_lookup. by rewrite S.
  - erewrite dtor_at by heap_lookup. rewrite S.
    by rewrite delete_insert_eq.
Qed.

Lemma assignment_drops_the_obligation_of_its_target_witness :
  let a : addr := 1%positive in
  let b : addr := 2%positive in
  let h : heap win :=
    {[ a := UniqueError (Win 0) true; b := UniqueError (Win 5) false ]} in
  (b ≠ a ∧ h !! a = Some (UniqueError (Win 0) true) ∧
   h !! b = Some (UniqueError (Win 5) false) ∧
   issafe (UniqueError (Win 0) true) = true) ∧
  dtor b h = Terminates ∧
  (assign b a;; dtor b) h = Returns ((), delete b h).
Proof.
  intros a b h.
  assert (b ≠ a) as N by discriminate.
  split; [split_and!; try reflexivity; exact N|].
  split; [reflexivity|].
  exact (proj2 (proj2 (assignment_drops_the_obligation_of_its_target h a b
    (UniqueError (Win 0) true) (UniqueError (Win 5) false)
    N eq_refl eq_refl eq_refl))).
Defined.

Lemma tie_assign_at (h : heap win) (err : addr) (w : unique_error win)
    (status : win) :
  h !! err = Some w →
  tie_assign err status h = Returns ((), <[err:=UniqueError status false]> h).
Proof.
  intros E. unfold tie_assign, ctor_from.
  destruct (new_at h (UniqueError (construct status) false)) as [F N].
  rewrite (bind_returns _ _ _ _ _ N).
  set (tmp := fresh (dom h)) in *.
  assert (err ≠ tmp) as D by congruence.
  erewrite bind_returns; [|eapply assign_at; [exact D|heap_lookup..]].
  erewrite dtor_at by heap_lookup. cbn [issafe error]. f_equal. f_equal.
  rewrite delete_insert_eq, delete_insert_ne by done.
  by rewrite delete_insert_id.
Qed.

(** X9.  Assigning a status value to a wrapper, as [std::tie(err, event)
    = ...] does through a temporary wrapper, never terminates the
    process: whatever [err] held and whether or not it was safe, it now
    holds the new status and is not safe, the temporary is gone and no
    other object has changed. *)
Theorem tie_assign_replaces_unconditionally (h : heap win) (err : addr)
    (w : unique_error win) (status : win) :
  h !! err = Some w →
  tie_assign err status h = Returns ((), <[err:=UniqueError status false]> h) ∧
  (tie_assign err status;; e ← get err; s ← is_safe err; mret (e, s)) h
    = Returns ((status, false), <[err:=UniqueError status false]> h).
Proof.
  intros E. pose proof (tie_assign_at h err w status E) as A.
  split; [done|]. rewrite (bind_returns _ _ _ _ _ A). by do 2 run_call.
Qed.

Lemma tie_assign_replaces_unconditionally_witness :
  let err : addr := 1%positive in
  let h : heap win := {[ err := UniqueError (Win 5) false ]} in
  h !! err = Some (UniqueError (Win 5) false) ∧
  tie_assign err (Win 0) h
    = Returns ((), {[ err := UniqueError (Win 0) false ]}).
Proof.
  intros err h. split; [reflexivity|].
  exact (proj1 (tie_assign_replaces_unconditionally h err
                  (UniqueError (Win 5) false) (Win 0) eq_refl)).
Defined.

(** ** Counting obligations *)

Section counting.
Context {T : Type}.

Lemma outstanding_insert_new (h : heap T) (p : addr) (u : unique_error T) :
  h !! p = None →
  outstanding (<[p:=u]> h) = (outstanding h + owes u)%nat.
Proof.
  intros F. unfold outstanding, owes. rewrite map_filter_insert.
  case_decide as S; cbn in S.
  - rewrite map_size_insert_None
      by (apply map_lookup_filter_None_2; by left).
    rewrite S. lia.
  - rewrite delete_id by done. destruct (issafe u); [lia|done].
Qed.

Lemma outstanding_update (h : heap T) (p : addr) (u u' : unique_error T) :
  h !! p = Some u →
  (outstanding (<[p:=u']> h) + owes u = outstanding h + owes u')%nat.
Proof.
  intros E.
  assert (<[p:=u']> h = <[p:=u']> (delete p h)) as E1
    by (by rewrite insert_delete_eq).
  assert (h = <[p:=u]> (delete p h)) as E2
    by (by rewrite insert_delete_eq, insert_id).
  rewrite E1. rewrite E2 at 2.
  rewrite !outstanding_insert_new by apply lookup_delete_eq. lia.
Qed.

Lemma outstanding_delete (h : heap T) (p : addr) (u : unique_error T) :
  h !! p = Some u →
  (outstanding (delete p h) + owes u = outstanding h)%nat.
Proof.
  intros E.
  assert (h = <[p:=u]> (delete p h)) as E2
    by (by rewrite insert_delete_eq, insert_id).
  rewrite E2 at 2.
  by rewrite outstanding_insert_new by apply lookup_delete_eq.
Qed.

End counting.

(** X10.  Copying never creates an obligation.  The copy constructor
    leaves the number of wrappers that are not safe as it was; an
    assignment lowers it by one when its target was not safe (that
    obligation is lost) and leaves it as it was otherwise; an assignment
    of a wrapper to itself lowers it by one when the wrapper was not
    safe. *)
Theorem copies_never_create_obligations {T : Type} `{is_error T}
    (h : heap T) (a : addr) (u : unique_error T) :
  h !! a = Some u →
  (∃ b h', ctor_copy a h = Returns (b, h') ∧
           outstanding h' = outstanding h) ∧
  (∀ (b : addr) (w : unique_error T), b ≠ a → h !! b = Some w →
   ∃ h', assign b a h = Returns (b, h') ∧
         (outstanding h' + owes w = outstanding h)%nat) ∧
  (∃ h', assign a a h = Returns (a, h') ∧
         (outstanding h' + owes u = outstanding h)%nat).
Proof.
  intros E. split_and!.
  - destruct (new_at h u) as [F _].
    assert (fresh (dom h) ≠ a) as N by congruence.
    eexists _, _. split; [by apply ctor_copy_at|].
    pose proof (outstanding_update (<[fresh (dom h):=u]> h) a u
                  (UniqueError (error u) true)) as U.
    rewrite lookup_insert_ne in U by done. specialize (U E).
    rewrite (outstanding_insert_new h _ u F) in U.
    unfold owes at 3 in U. cbn [issafe] in U. lia.
  - intros b w N Eb. eexists. split; [by eapply assign_at|].
    pose proof (outstanding_update (<[b:=u]> h) a u
                  (UniqueError (error u) true)) as U.
    rewrite lookup_insert_ne in U by done. specialize (U E).
    pose proof (outstanding_update h b w u Eb) as W.
    unfold owes at 2 in U. cbn [issafe] in U. lia.
  - eexists. split; [by apply assign_self_at|].
    pose proof (outstanding_update h a u (UniqueError (error u) true) E) as U.
    unfold owes at 2 in U. cbn [issafe] in U. lia.
Qed.

Lemma copies_never_create_obligations_witness :
  let a : addr := 1%positive in
  let b : addr := 2%positive in
  let h : heap win :=
    {[ a := UniqueError (Win 5) false; b := UniqueError (Win 6) false ]} in
  h !! a = Some (UniqueError (Win 5) false) ∧
  outstanding h = 2%nat ∧
  (∃ h', assign b a h = Returns (b, h') ∧ (outstanding h' + 1 = 2)%nat).
Proof.
  intros a b h. split; [reflexivity|]. split; [reflexivity|].
  destruct (copies_never_create_obligations h a _ eq_refl) as (_ & A & _).
  destruct (A b (UniqueError (Win 6) false)) as (h' & R & O);
    [discriminate|reflexivity|].
  exists h'. split; [exact R | exact O].
Defined.

(** X11.  How the other members move the number of wrappers that are
    not safe: [ok()] and [release()] lower it by one when the wrapper
    was not safe and leave it otherwise; a destructor that returns
    leaves it as it was; the default constructor leaves it and the
    constructor from a value raises it by one. *)
Theorem obligations_are_accounted {T : Type} `{is_error T} {V : Type}
    `{constructs V T} (h : heap T) (p : addr) (u : unique_error T) (v : V) :
  h !! p = Some u →
  (∃ b h', ok_ p h = Returns (b, h') ∧
           (outstanding h' + owes u = outstanding h)%nat) ∧
  (∃ r h', release p h = Returns (r, h') ∧
           (outstanding h' + owes u = outstanding h)%nat) ∧
  (∀ h', dtor p h = Returns ((), h') → outstanding h' = outstanding h) ∧
  (∃ q h', ctor_default h = Returns (q, h') ∧
           outstanding h' = outstanding h) ∧
  (∃ q h', ctor_from v h = Returns (q, h') ∧
           outstanding h' = S (outstanding h)).
Proof.
  intros E. split_and!.
  - eexists _, _. split; [by apply ok_at|].
    pose proof (outstanding_update h p u (UniqueError (error u) true) E) as U.
    unfold owes at 2 in U. cbn [issafe] in U. lia.
  - eexists _, _. split; [by apply release_at|].
    pose proof (outstanding_update h p u (UniqueError neutral true) E) as U.
    unfold owes at 2 in U. cbn [issafe] in U. lia.
  - intros h'. rewrite (dtor_at h p u E).
    pose proof (outstanding_delete h p u E) as D. unfold owes in D.
    destruct (issafe u); [|done]. intros [= <-]. lia.
  - destruct (new_at h (UniqueError neutral true)) as [F N].
    eexists _, _. split; [exact N|].
    rewrite outstanding_insert_new by done. unfold owes. cbn [issafe]. lia.
  - destruct (new_at h (UniqueError (construct v : T) false)) as [F N].
    eexists _, _. split; [exact N|].
    rewrite outstanding_insert_new by done. unfold owes. cbn [issafe]. lia.
Qed.

Lemma obligations_are_accounted_witness :
  let p : addr := 1%positive in
  let h : heap win := {[ p := UniqueError (Win 5) false ]} in
  h !! p = Some (UniqueError (Win 5) false) ∧
  outstanding h = 1%nat ∧
  (∃ b h', ok_ p h = Returns (b, h') ∧ (outstanding h' + 1 = 1)%nat).
Proof.
  intros p h. split; [reflexivity|]. split; [reflexivity|].
  destruct (obligations_are_accounted h p (UniqueError (Win 5) false)
              (0 : DWORD) eq_refl) as ((b & h' & R & O) & _).
  exists b, h'. split; [exact R | exact O].
Defined.

(** ** The blocks of [wmain], for every outcome of the platform call *)

Lemma last_error_if_status (env : thread) (event : Z) :
  (pipe env event (last_error_if 0)).1
    = Win (if bool_decide (event = 0) then GetLastError env else NOERROR).
Proof. reflexivity. Qed.

(** The next statement of a block: a member call, a [reset(v)] or a
    destructor on a wrapper whose state is known, or an assignment of a
    status value. *)
Ltac run_block :=
  first
    [ run_call
    | erewrite bind_returns;
      [ | first
            [ eapply tie_assign_at; heap_lookup
            | erewrite dtor_at by heap_lookup; cbn [issafe]; reflexivity
            | erewrite reset_from_at by heap_lookup; cbn [issafe];
              reflexivity ] ] ];
  cbn [error issafe].

Ltac enter_block h :=
  unfold ctor_default;
  let F := fresh "F" in
  let N := fresh "N" in
  destruct (new_at h (UniqueError neutral true)) as [F N];
  rewrite (bind_returns _ _ _ _ _ N); clear N.

Ltac leave_block :=
  unfold mret, cmd_ret; rewrite ?insert_insert_eq;
  rewrite delete_insert_id by assumption.

(** X12.  The two blocks of [wmain] that check their wrapper never
    terminate the process: the wrapper owes a check after the assignment
    or the [reset] (the [assert] holds), the check discharges it, and
    every object is destroyed.  The [win] block returns [-1] exactly when
    the raw event is the sentinel and the last error code is not
    [NOERROR]; the [hr] block exactly when the result is [FAILED]. *)
Theorem wmain_checked_blocks_return (env : thread) (event : Z)
    (result : HRESULT) (h : heap win) (h' : heap hr) :
  wmain_checked env event h
    = Returns ((false,
                bool_decide (event = 0) &&
                negb (bool_decide (GetLastError env = NOERROR))), h) ∧
  wmain_reset_checked result h'
    = Returns ((false, hr_failed (construct result)), h').
Proof.
  split.
  - unfold wmain_checked, operator_bool. rewrite last_error_if_status.
    enter_block h. do 4 run_block. leave_block.
    rewrite ok_win. do 3 f_equal. repeat case_bool_decide; naive_solver.
  - unfold wmain_reset_checked, operator_bool.
    enter_block h'. do 4 run_block. leave_block.
    rewrite hr_failed_not_succeeded.
    by rewrite (ok_to_bool (construct result : hr)).
Qed.

(** X13.  The two blocks of [wmain] that release their wrapper never
    terminate the process either: the comparison before the release
    discharges nothing, [release()] hands out the status that was
    assigned or reset and leaves the wrapper safe (the second [assert]
    holds), and every object is destroyed. *)
Theorem wmain_released_blocks_return (env : thread) (event : Z)
    (result : HRESULT) (h : heap win) (h' : heap hr) :
  wmain_released env event h
    = Returns ((false,
                negb (bool_decide (event = 0)) ||
                bool_decide (GetLastError env = NOERROR),
                Win (if bool_decide (event = 0)
                     then GetLastError env else NOERROR),
                true), h) ∧
  wmain_reset_released result h'
    = Returns ((false, bool_decide (result = S_OK), Hr result, true), h').
Proof.
  split.
  - unfold wmain_released. rewrite last_error_if_status.
    enter_block h. do 6 run_block. leave_block.
    do 5 f_equal. cbn. repeat case_bool_decide; naive_solver.
  - unfold wmain_reset_released.
    enter_block h'. do 6 run_block. leave_block. done.
Qed.

(** X14.  The disabled block that neither checks nor releases [err]
    terminates the process for every outcome of the call, a successful
    one included. *)
Theorem wmain_unchecked_block_terminates (env : thread) (event : Z)
    (h : heap win) :
  wmain_unchecked env event h = Terminates.
Proof.
  unfold wmain_unchecked. enter_block h. do 2 run_block.
  apply bind_terminates. by erewrite dtor_at by heap_lookup.
Qed.

(** X15.  The disabled block that assigns to [err] twice does not
    terminate the process at the second assignment, nor later: the
    status of the first call is replaced without having been checked,
    [err] owes a check for the second status only, [ok(err)] discharges
    it and answers for the second call alone. *)
Theorem wmain_reassigned_block_returns (env1 env2 : thread)
    (event1 event2 : Z) (h : heap win) :
  wmain_reassigned env1 env2 event1 event2 h
    = Returns ((false, false,
                negb (bool_decide (event2 = 0)) ||
                bool_decide (GetLastError env2 = NOERROR)), h).
Proof.
  unfold wmain_reassigned, ok_unique. rewrite !last_error_if_status.
  enter_block h. do 6 run_block. leave_block.
  rewrite ok_win. do 3 f_equal. repeat case_bool_decide; naive_solver.
Qed.
